(** * Character controller and camera rig of the virtual house tour

    A shallow embedding of [src/main.js]: the keyboard and mouse handlers,
    the character-loaded callback and the per-frame function [animate],
    together with the few three.js operations they call.

    The program is embedded twice.  In the first embedding JavaScript
    numbers are read as real numbers: every arithmetic operation of the
    source is the corresponding operation on [R].  It carries the
    general statements; those about keys, edges, clamping and which
    values a frame depends on do not rest on the arithmetic being exact,
    while those that give a length or a distance exactly say so: they
    are statements about exact arithmetic.  In the second embedding,
    module [F64], every number is a binary64 float and every operation
    rounds as the program's does; it runs the program on concrete
    inputs and shows where rounding makes the exact statements fail. *)

From Stdlib Require Import Reals Lra Psatz List String Bool.
From Stdlib Require Floats QArith.
Import ListNotations.

Open Scope R_scope.

(** ** The three.js operations used by the program

    Transcribed from the library's [Vector3.js], [Quaternion.js] and
    [AnimationAction.js]; each definition carries the name of the method
    it stands for. *)

Module Three.

Record Vector3 := vec3 { vx : R; vy : R; vz : R }.
Record Quaternion := quat { qx : R; qy : R; qz : R; qw : R }.

(** [new THREE.Euler(x, y, z)], rotation order ['XYZ'] (the default). *)
Record Euler := euler { ex : R; ey : R; ez : R }.

(** [Quaternion.setFromEuler], case ['XYZ']. *)
Definition setFromEuler (e : Euler) : Quaternion :=
  let c1 := cos (ex e / 2) in
  let c2 := cos (ey e / 2) in
  let c3 := cos (ez e / 2) in
  let s1 := sin (ex e / 2) in
  let s2 := sin (ey e / 2) in
  let s3 := sin (ez e / 2) in
  quat (s1 * c2 * c3 + c1 * s2 * s3)
       (c1 * s2 * c3 - s1 * c2 * s3)
       (c1 * c2 * s3 + s1 * s2 * c3)
       (c1 * c2 * c3 - s1 * s2 * s3).

(** [Vector3.applyQuaternion]: [v + q.w * t + cross(q.xyz, t)] with
    [t = 2 * cross(q.xyz, v)]. *)
Definition applyQuaternion (v : Vector3) (q : Quaternion) : Vector3 :=
  let tx := 2 * (qy q * vz v - qz q * vy v) in
  let ty := 2 * (qz q * vx v - qx q * vz v) in
  let tz := 2 * (qx q * vy v - qy q * vx v) in
  vec3 (vx v + qw q * tx + qy q * tz - qz q * ty)
       (vy v + qw q * ty + qz q * tx - qx q * tz)
       (vz v + qw q * tz + qx q * ty - qy q * tx).

(** The older body of [Vector3.applyQuaternion]: [q * v * conj q]. *)
Definition applyQuaternion_classic (v : Vector3) (q : Quaternion) : Vector3 :=
  let ix := qw q * vx v + qy q * vz v - qz q * vy v in
  let iy := qw q * vy v + qz q * vx v - qx q * vz v in
  let iz := qw q * vz v + qx q * vy v - qy q * vx v in
  let iw := - qx q * vx v - qy q * vy v - qz q * vz v in
  vec3 (ix * qw q + iw * - qx q + iy * - qz q - iz * - qy q)
       (iy * qw q + iw * - qy q + iz * - qx q - ix * - qz q)
       (iz * qw q + iw * - qz q + ix * - qy q - iy * - qx q).

Definition lengthSq (v : Vector3) : R :=
  vx v * vx v + vy v * vy v + vz v * vz v.

Definition length (v : Vector3) : R := sqrt (lengthSq v).

Definition multiplyScalar (v : Vector3) (s : R) : Vector3 :=
  vec3 (vx v * s) (vy v * s) (vz v * s).

Definition divideScalar (v : Vector3) (s : R) : Vector3 :=
  multiplyScalar v (1 / s).

(** [a || b] on numbers: [b] when [a] is zero. *)
Definition orElse (a b : R) : R :=
  if Req_dec_T a 0 then b else a.

(** [Vector3.normalize]: [divideScalar(this.length() || 1)]. *)
Definition normalize (v : Vector3) : Vector3 :=
  divideScalar v (orElse (length v) 1).

Definition add (a b : Vector3) : Vector3 :=
  vec3 (vx a + vx b) (vy a + vy b) (vz a + vz b).


Definition addScaledVector (a v : Vector3) (s : R) : Vector3 :=
  vec3 (vx a + vx v * s) (vy a + vy v * s) (vz a + vz v * s).

Definition lerpVectors (v1 v2 : Vector3) (alpha : R) : Vector3 :=
  vec3 (vx v1 + (vx v2 - vx v1) * alpha)
       (vy v1 + (vy v2 - vy v1) * alpha)
       (vz v1 + (vz v2 - vz v1) * alpha).

Definition distanceToSquared (a b : Vector3) : R :=
  let dx := vx a - vx b in
  let dy := vy a - vy b in
  let dz := vz a - vz b in
  dx * dx + dy * dy + dz * dz.

Definition distanceTo (a b : Vector3) : R := sqrt (distanceToSquared a b).


(** A scene node: the two fields of [Object3D] the program touches. *)
Record Object3D := object3D { position : Vector3; quaternion : Quaternion }.

(** An [AnimationAction], reduced to whether the mixer has it scheduled. *)
Record AnimationAction := action { active : bool }.

(** The calls the program makes on [walkAction]. *)
Inductive ActionCall := CPlay | CReset | CStop.

Definition play (_ : AnimationAction) : AnimationAction := action true.
Definition reset (a : AnimationAction) : AnimationAction := a.
Definition stop (_ : AnimationAction) : AnimationAction := action false.

End Three.

Import Three.

(** ** Constants of [main.js] *)

Definition CHARACTER_START_POSITION : Vector3 := vec3 0 0 0.
Definition MOVEMENT_SPEED : R := 5.
Definition sensitivity : R := 0.002.
Definition MAX_DELTA : R := 0.05.
Definition CAMERA_START_POSITION : Vector3 := vec3 0 3 10.

(** ** Program state *)

(** The object [keys]: its four own properties. *)
Record Keys := mkKeys { KeyW : bool; KeyA : bool; KeyS : bool; KeyD : bool }.

(** [keys.hasOwnProperty(code)] *)
Definition hasOwnProperty (code : string) : bool :=
  (String.eqb code "KeyW" || String.eqb code "KeyA"
   || String.eqb code "KeyS" || String.eqb code "KeyD")%bool.

(** [keys[code] = b], for a [code] that is an own property. *)
Definition setKey (k : Keys) (code : string) (b : bool) : Keys :=
  if String.eqb code "KeyW" then mkKeys b (KeyA k) (KeyS k) (KeyD k)
  else if String.eqb code "KeyA" then mkKeys (KeyW k) b (KeyS k) (KeyD k)
  else if String.eqb code "KeyS" then mkKeys (KeyW k) (KeyA k) b (KeyD k)
  else if String.eqb code "KeyD" then mkKeys (KeyW k) (KeyA k) (KeyS k) b
  else k.

(** The module-level variables of [main.js].  [calls] is a ghost field:
    the calls made on [walkAction] so far, oldest first.  [listening]
    says whether [onMouseMove] is registered for [mousemove]. *)
Record State := mkState {
  character : option Object3D;
  mixer : option R;
  walkAction : option AnimationAction;
  keys : Keys;
  yaw : R;
  pitch : R;
  listening : bool;
  prevTime : R;
  wasMoving : bool;
  cameraPosition : Vector3;
  cameraLookAt : option Vector3;
  calls : list ActionCall
}.

(** The state when the module has been evaluated; [t0] is the value
    [performance.now()] returned for [prevTime]. *)
Definition init (t0 : R) : State :=
  mkState None None None (mkKeys false false false false) 0 0 false t0 false
          CAMERA_START_POSITION None [].

(** ** Event handlers *)

(** The callback of [loader.load(charUrl.href, ...)]; [scene] is
    [gltf.scene]. *)
Definition onCharacterLoaded (s : State) (scene : Object3D) : State :=
  let ch := object3D CHARACTER_START_POSITION (quaternion scene) in
  mkState (Some ch) (Some 0) (Some (play (action false)))
          (keys s) (yaw s) (pitch s) (listening s) (prevTime s) (wasMoving s)
          (cameraPosition s) (cameraLookAt s) (calls s ++ [CPlay]).

Definition withKeys (s : State) (k : Keys) : State :=
  mkState (character s) (mixer s) (walkAction s) k (yaw s) (pitch s)
          (listening s) (prevTime s) (wasMoving s) (cameraPosition s)
          (cameraLookAt s) (calls s).

Definition onKeyDown (s : State) (code : string) : State :=
  if hasOwnProperty code then withKeys s (setKey (keys s) code true) else s.

Definition onKeyUp (s : State) (code : string) : State :=
  if hasOwnProperty code then withKeys s (setKey (keys s) code false) else s.

(** The [pointerlockchange] listener; [locked] is
    [document.pointerLockElement === renderer.domElement]. *)
Definition onPointerLockChange (s : State) (locked : bool) : State :=
  mkState (character s) (mixer s) (walkAction s) (keys s) (yaw s) (pitch s)
          locked (prevTime s) (wasMoving s) (cameraPosition s)
          (cameraLookAt s) (calls s).

Definition clampPitch (p : R) : R := Rmax (- PI / 2) (Rmin (PI / 2) p).

Definition onMouseMove (s : State) (movementX movementY : R) : State :=
  let yaw' := yaw s - movementX * sensitivity in
  let pitch' := pitch s - movementY * sensitivity in
  mkState (character s) (mixer s) (walkAction s) (keys s) yaw'
          (clampPitch pitch') (listening s) (prevTime s) (wasMoving s)
          (cameraPosition s) (cameraLookAt s) (calls s).

(** ** The frame function *)

Definition Rgtb (a b : R) : bool := if Rlt_dec b a then true else false.

(** Lines 136-140: the intent vector built from the held keys. *)
Definition moveDir (k : Keys) : Vector3 :=
  let m := vec3 0 0 0 in
  let m := if KeyW k then vec3 (vx m) (vy m) (vz m - 1) else m in
  let m := if KeyS k then vec3 (vx m) (vy m) (vz m + 1) else m in
  let m := if KeyA k then vec3 (vx m - 1) (vy m) (vz m) else m in
  let m := if KeyD k then vec3 (vx m + 1) (vy m) (vz m) else m in
  m.

Definition isMoving (k : Keys) : bool := Rgtb (lengthSq (moveDir k)) 0.

(** Line 128. *)
Definition frameDelta (prev time : R) : R :=
  Rmin ((time - prev) / 1000) MAX_DELTA.

Definition charQuat (yaw : R) : Quaternion := setFromEuler (euler 0 yaw 0).

(** Lines 132-146: orientation and movement of the character. *)
Definition moveCharacter (ch : Object3D) (k : Keys) (yaw delta : R) : Object3D :=
  let q := charQuat yaw in
  let pos :=
    if isMoving k
    then addScaledVector (position ch)
           (applyQuaternion (normalize (moveDir k)) q) (MOVEMENT_SPEED * delta)
    else position ch in
  object3D pos q.

(** Lines 149-156: the animation switch.  Returns the action, the new
    [wasMoving] and the calls made. *)
Definition switchAnimation (wa : option AnimationAction) (moving was : bool)
  : option AnimationAction * bool * list ActionCall :=
  match wa with
  | Some a =>
      if (moving && negb was)%bool then (Some (play (reset a)), moving, [CReset; CPlay])
      else if (negb moving && was)%bool then (Some (stop a), moving, [CStop])
      else (Some a, moving, [])
  | None => (None, was, [])
  end.

(** Lines 159-162: [cameraPos], the position the camera is drawn
    towards. *)
Definition cameraTarget (charPos : Vector3) (yaw pitch : R) : Vector3 :=
  let viewQuat := setFromEuler (euler pitch (yaw + PI) 0) in
  let frontOffset := applyQuaternion (vec3 0 2.8 4) viewQuat in
  add charPos frontOffset.

(** [if (mixer) mixer.update(delta)]: the mixer's clock advances. *)
Definition updateMixer (m : option R) (delta : R) : option R :=
  match m with
  | Some t => Some (t + delta)
  | None => None
  end.

Definition animate (s : State) (time : R) : State :=
  let delta := frameDelta (prevTime s) time in
  match character s with
  | Some ch =>
      let ch' := moveCharacter ch (keys s) (yaw s) delta in
      let '(wa, was, issued) :=
        switchAnimation (walkAction s) (isMoving (keys s)) (wasMoving s) in
      let cameraPos := cameraTarget (position ch') (yaw s) (pitch s) in
      let cam := lerpVectors (cameraPosition s) cameraPos 0.2 in
      let lookAt := add (position ch') (vec3 0 1.6 0) in
      mkState (Some ch') (updateMixer (mixer s) delta) wa (keys s) (yaw s)
              (pitch s) (listening s) time was cam (Some lookAt)
              (calls s ++ issued)
  | None =>
      mkState None (updateMixer (mixer s) delta) (walkAction s) (keys s)
              (yaw s) (pitch s) (listening s) time (wasMoving s)
              (cameraPosition s) (cameraLookAt s) (calls s)
  end.

(** ** Runs of the program *)

Inductive Event :=
| CharacterLoaded (scene : Object3D)
| KeyDown (code : string)
| KeyUp (code : string)
| PointerLockChange (locked : bool)
| MouseMove (movementX movementY : R)
| Frame (time : R).

Definition step (s : State) (e : Event) : State :=
  match e with
  | CharacterLoaded scene => onCharacterLoaded s scene
  | KeyDown code => onKeyDown s code
  | KeyUp code => onKeyUp s code
  | PointerLockChange locked => onPointerLockChange s locked
  | MouseMove dx dy => if listening s then onMouseMove s dx dy else s
  | Frame time => animate s time
  end.

Definition run (s : State) (evs : list Event) : State := fold_left step evs s.

Definition isLoad (e : Event) : bool :=
  match e with CharacterLoaded _ => true | _ => false end.

Definition noLoad (evs : list Event) : bool := forallb (fun e => negb (isLoad e)) evs.

(** The value of [isMoving] at each frame of a run, in order. *)
Fixpoint frameIntents (s : State) (evs : list Event) : list bool :=
  match evs with
  | [] => []
  | Frame t :: rest => isMoving (keys s) :: frameIntents (step s (Frame t)) rest
  | e :: rest => frameIntents (step s e) rest
  end.

(** ** Notions used in the statements *)

(** Whether the walk animation is playing. *)
Definition playing (s : State) : bool :=
  match walkAction s with
  | Some a => active a
  | None => false
  end.

(** Character and animation handle are both there. *)
Definition loaded (s : State) : bool :=
  match character s, walkAction s with
  | Some _, Some _ => true
  | _, _ => false
  end.

Definition orientation (s : State) : option Quaternion :=
  option_map quaternion (character s).

Definition characterPosition (s : State) : option Vector3 :=
  option_map position (character s).

(** The calls made on [walkAction] between [s] and a later state [s']. *)
Definition issuedBetween (s s' : State) : list ActionCall :=
  skipn (List.length (calls s)) (calls s').

(** The moving/idle edge between two consecutive frames. *)
Inductive Edge := Rising | Falling | NoEdge.

Definition edge (was now : bool) : Edge :=
  match was, now with
  | false, true => Rising
  | true, false => Falling
  | _, _ => NoEdge
  end.

(** What the frame function does to the animation on each edge. *)
Definition callsFor (e : Edge) : list ActionCall :=
  match e with
  | Rising => [CReset; CPlay]
  | Falling => [CStop]
  | NoEdge => []
  end.

(** Reading a sequence of per-frame intents as edges: [true] when the
    latest edge was into motion, [false] when it was into rest, and
    [was] when there was none. *)
Fixpoint motionAfterEdges (was : bool) (intents : list bool) : bool :=
  match intents with
  | [] => was
  | now :: rest =>
      match edge was now with
      | Rising => motionAfterEdges true rest
      | Falling => motionAfterEdges false rest
      | NoEdge => motionAfterEdges was rest
      end
  end.


(** Two events that differ at most in the vertical mouse movement, in
    the key pressed or released, and in the frame time. *)
Inductive sameHeading : Event -> Event -> Prop :=
| sh_load : forall sc, sameHeading (CharacterLoaded sc) (CharacterLoaded sc)
| sh_down : forall c1 c2, sameHeading (KeyDown c1) (KeyDown c2)
| sh_up : forall c1 c2, sameHeading (KeyUp c1) (KeyUp c2)
| sh_lock : forall b, sameHeading (PointerLockChange b) (PointerLockChange b)
| sh_move : forall dx dy1 dy2, sameHeading (MouseMove dx dy1) (MouseMove dx dy2)
| sh_frame : forall t1 t2, sameHeading (Frame t1) (Frame t2).

(** Two states with the same heading, the same mouse capture and the
    same character orientation; everything else, pitch included, is
    free. *)
Definition yawAgree (s1 s2 : State) : Prop :=
  yaw s1 = yaw s2 /\ listening s1 = listening s2 /\
  orientation s1 = orientation s2.


(** Where the camera is drawn towards in state [s]. *)
Definition targetOf (s : State) : option Vector3 :=
  match character s with
  | Some ch => Some (cameraTarget (position ch) (yaw s) (pitch s))
  | None => None
  end.

(** Concrete inputs for the examples. *)
Definition scene0 : Object3D := object3D (vec3 0 0 0) (quat 0 0 0 1).
Definition holdW : Keys := mkKeys true false false false.
Definition allHeld : Keys := mkKeys true true true true.
Definition loaded0 : State := onCharacterLoaded (init 0) scene0.

(** The character, if any, stands at height zero. *)
Definition onGround (s : State) : Prop :=
  match character s with
  | Some ch => vy (position ch) = 0
  | None => True
  end.

Definition height (s : State) : option R :=
  option_map (fun ch => vy (position ch)) (character s).

(** The state of the program while the character has not loaded. *)
Definition beforeLoad (s : State) : Prop :=
  character s = None /\ mixer s = None /\ walkAction s = None /\
  wasMoving s = false /\ cameraPosition s = CAMERA_START_POSITION /\
  cameraLookAt s = None /\ calls s = [].

Definition withPrevTime (s : State) (t : R) : State :=
  mkState (character s) (mixer s) (walkAction s) (keys s) (yaw s) (pitch s)
          (listening s) t (wasMoving s) (cameraPosition s) (cameraLookAt s)
          (calls s).

Definition pitchInRange (s : State) : Prop :=
  - PI / 2 <= pitch s <= PI / 2.

(** The held keys, followed through the events on their own. *)
Definition keyStep (k : Keys) (e : Event) : Keys :=
  match e with
  | KeyDown code => if hasOwnProperty code then setKey k code true else k
  | KeyUp code => if hasOwnProperty code then setKey k code false else k
  | _ => k
  end.

(** Net intent on at least one axis. *)
Definition netIntent (k : Keys) : bool :=
  (xorb (KeyW k) (KeyS k) || xorb (KeyA k) (KeyD k))%bool.

Fixpoint intentsFrom (k : Keys) (evs : list Event) : list bool :=
  match evs with
  | [] => []
  | Frame _ :: rest => netIntent k :: intentsFrom k rest
  | e :: rest => intentsFrom (keyStep k e) rest
  end.

(** ** Notions used for the further properties *)

(** [keys[code]]: the own property [code] of [keys], if there is one. *)
Definition getKey (k : Keys) (code : string) : option bool :=
  if String.eqb code "KeyW" then Some (KeyW k)
  else if String.eqb code "KeyA" then Some (KeyA k)
  else if String.eqb code "KeyS" then Some (KeyS k)
  else if String.eqb code "KeyD" then Some (KeyD k)
  else None.

(** What a single event says about the key [code]. *)
Definition keyEvent (code : string) (e : Event) : option bool :=
  match e with
  | KeyDown c => if String.eqb c code then Some true else None
  | KeyUp c => if String.eqb c code then Some false else None
  | _ => None
  end.

(** The latest event about the key [code] in a run: [Some true] for a
    keydown, [Some false] for a keyup, [None] when there is none. *)
Fixpoint lastKeyEvent (code : string) (evs : list Event) : option bool :=
  match evs with
  | [] => None
  | e :: rest =>
      match lastKeyEvent code rest with
      | Some b => Some b
      | None => keyEvent code e
      end
  end.

(** A key event whose code is none of the four bindings. *)
Definition unboundKey (e : Event) : bool :=
  match e with
  | KeyDown c => negb (hasOwnProperty c)
  | KeyUp c => negb (hasOwnProperty c)
  | _ => false
  end.

Definition isLockChange (e : Event) : bool :=
  match e with PointerLockChange _ => true | _ => false end.

Definition noLockChange (evs : list Event) : bool :=
  forallb (fun e => negb (isLockChange e)) evs.

Definition isFrame (e : Event) : bool :=
  match e with Frame _ => true | _ => false end.

(** Events handled by the input listeners: neither a frame nor the
    load. *)
Definition isInput (e : Event) : bool := negb (isLoad e) && negb (isFrame e).

(** ** The program in binary64

    The same handlers and frame function, with every number a binary64
    float and every operation rounded as JavaScript rounds it.  It is
    used to run the program on concrete inputs.  [Math.sin] and
    [Math.cos] are given where their result is known: at zero the
    language standard fixes it, at [Math.PI / 2] it is the correctly
    rounded value the engines return; elsewhere the result depends on
    the engine, and a frame that needs it has no result here. *)

Module F64.

Import PrimFloat.
Local Open Scope float_scope.
#[local] Set Warnings "-inexact-float".

Record Vector3 := vec3 { vx : float; vy : float; vz : float }.
Record Quaternion := quat { qx : float; qy : float; qz : float; qw : float }.
Record Euler := euler { ex : float; ey : float; ez : float }.
Record Object3D := object3D { position : Vector3; quaternion : Quaternion }.

(** Which body [Vector3.applyQuaternion] has: three.js rewrote it;
    both are modelled. *)
Inductive Release := Classic | Current.

Definition Math_PI : float := 0x1.921fb54442d18p+1.
Definition HALF_PI : float := 0x1.921fb54442d18p+0.

Definition Math_sin (x : float) : option float :=
  if is_zero x then Some x
  else if x =? HALF_PI then Some 1
  else None.

Definition Math_cos (x : float) : option float :=
  if is_zero x then Some 1
  else if x =? HALF_PI then Some 0x1.1a62633145c07p-54
  else None.

Definition Math_min (a b : float) : float :=
  if (is_nan a || is_nan b)%bool then nan
  else if a <? b then a
  else if b <? a then b
  else if get_sign a then a else b.

Definition Math_max (a b : float) : float :=
  if (is_nan a || is_nan b)%bool then nan
  else if a <? b then b
  else if b <? a then a
  else if get_sign a then b else a.

Definition setFromEuler (e : Euler) : option Quaternion :=
  match Math_cos (ex e / 2), Math_cos (ey e / 2), Math_cos (ez e / 2),
        Math_sin (ex e / 2), Math_sin (ey e / 2), Math_sin (ez e / 2) with
  | Some c1, Some c2, Some c3, Some s1, Some s2, Some s3 =>
      Some (quat (s1 * c2 * c3 + c1 * s2 * s3)
                 (c1 * s2 * c3 - s1 * c2 * s3)
                 (c1 * c2 * s3 + s1 * s2 * c3)
                 (c1 * c2 * c3 - s1 * s2 * s3))
  | _, _, _, _, _, _ => None
  end.

Definition applyQuaternion_current (v : Vector3) (q : Quaternion) : Vector3 :=
  let tx := 2 * (qy q * vz v - qz q * vy v) in
  let ty := 2 * (qz q * vx v - qx q * vz v) in
  let tz := 2 * (qx q * vy v - qy q * vx v) in
  vec3 (vx v + qw q * tx + qy q * tz - qz q * ty)
       (vy v + qw q * ty + qz q * tx - qx q * tz)
       (vz v + qw q * tz + qx q * ty - qy q * tx).

Definition applyQuaternion_classic (v : Vector3) (q : Quaternion) : Vector3 :=
  let ix := qw q * vx v + qy q * vz v - qz q * vy v in
  let iy := qw q * vy v + qz q * vx v - qx q * vz v in
  let iz := qw q * vz v + qx q * vy v - qy q * vx v in
  let iw := opp (qx q) * vx v - qy q * vy v - qz q * vz v in
  vec3 (ix * qw q + iw * opp (qx q) + iy * opp (qz q) - iz * opp (qy q))
       (iy * qw q + iw * opp (qy q) + iz * opp (qx q) - ix * opp (qz q))
       (iz * qw q + iw * opp (qz q) + ix * opp (qy q) - iy * opp (qx q)).

Definition applyQuaternion (r : Release) : Vector3 -> Quaternion -> Vector3 :=
  match r with
  | Classic => applyQuaternion_classic
  | Current => applyQuaternion_current
  end.

Definition lengthSq (v : Vector3) : float :=
  vx v * vx v + vy v * vy v + vz v * vz v.

Definition length (v : Vector3) : float := sqrt (lengthSq v).

Definition multiplyScalar (v : Vector3) (s : float) : Vector3 :=
  vec3 (vx v * s) (vy v * s) (vz v * s).

Definition divideScalar (v : Vector3) (s : float) : Vector3 :=
  multiplyScalar v (1 / s).

(** [a || b] on numbers: [b] when [a] is zero or NaN. *)
Definition orElse (a b : float) : float :=
  if (is_zero a || is_nan a)%bool then b else a.

Definition normalize (v : Vector3) : Vector3 :=
  divideScalar v (orElse (length v) 1).

Definition add (a b : Vector3) : Vector3 :=
  vec3 (vx a + vx b) (vy a + vy b) (vz a + vz b).

Definition addScaledVector (a v : Vector3) (s : float) : Vector3 :=
  vec3 (vx a + vx v * s) (vy a + vy v * s) (vz a + vz v * s).

Definition lerpVectors (v1 v2 : Vector3) (alpha : float) : Vector3 :=
  vec3 (vx v1 + (vx v2 - vx v1) * alpha)
       (vy v1 + (vy v2 - vy v1) * alpha)
       (vz v1 + (vz v2 - vz v1) * alpha).

Definition distanceToSquared (a b : Vector3) : float :=
  let dx := vx a - vx b in
  let dy := vy a - vy b in
  let dz := vz a - vz b in
  dx * dx + dy * dy + dz * dz.

Definition distanceTo (a b : Vector3) : float := sqrt (distanceToSquared a b).

Definition CHARACTER_START_POSITION : Vector3 := vec3 0 0 0.
Definition MOVEMENT_SPEED : float := 5.
Definition sensitivity : float := 0.002.
Definition MAX_DELTA : float := 0.05.
Definition CAMERA_START_POSITION : Vector3 := vec3 0 3 10.

Record State := mkState {
  character : option Object3D;
  mixer : option float;
  walkAction : option Three.AnimationAction;
  keys : Keys;
  yaw : float;
  pitch : float;
  listening : bool;
  prevTime : float;
  wasMoving : bool;
  cameraPosition : Vector3;
  cameraLookAt : option Vector3;
  calls : list Three.ActionCall
}.

Definition init (t0 : float) : State :=
  mkState None None None (mkKeys false false false false) 0 0 false t0 false
          CAMERA_START_POSITION None [].

Definition onCharacterLoaded (s : State) (scene : Object3D) : State :=
  let ch := object3D CHARACTER_START_POSITION (quaternion scene) in
  mkState (Some ch) (Some 0) (Some (Three.play (Three.action false)))
          (keys s) (yaw s) (pitch s) (listening s) (prevTime s) (wasMoving s)
          (cameraPosition s) (cameraLookAt s) (calls s ++ [Three.CPlay]).

Definition withKeys (s : State) (k : Keys) : State :=
  mkState (character s) (mixer s) (walkAction s) k (yaw s) (pitch s)
          (listening s) (prevTime s) (wasMoving s) (cameraPosition s)
          (cameraLookAt s) (calls s).

Definition onKeyDown (s : State) (code : string) : State :=
  if hasOwnProperty code then withKeys s (setKey (keys s) code true) else s.

Definition onKeyUp (s : State) (code : string) : State :=
  if hasOwnProperty code then withKeys s (setKey (keys s) code false) else s.

Definition onPointerLockChange (s : State) (locked : bool) : State :=
  mkState (character s) (mixer s) (walkAction s) (keys s) (yaw s) (pitch s)
          locked (prevTime s) (wasMoving s) (cameraPosition s)
          (cameraLookAt s) (calls s).

Definition clampPitch (p : float) : float :=
  Math_max (opp Math_PI / 2) (Math_min (Math_PI / 2) p).

Definition onMouseMove (s : State) (movementX movementY : float) : State :=
  let yaw' := yaw s - movementX * sensitivity in
  let pitch' := pitch s - movementY * sensitivity in
  mkState (character s) (mixer s) (walkAction s) (keys s) yaw'
          (clampPitch pitch') (listening s) (prevTime s) (wasMoving s)
          (cameraPosition s) (cameraLookAt s) (calls s).

Definition moveDir (k : Keys) : Vector3 :=
  let m := vec3 0 0 0 in
  let m := if KeyW k then vec3 (vx m) (vy m) (vz m - 1) else m in
  let m := if KeyS k then vec3 (vx m) (vy m) (vz m + 1) else m in
  let m := if KeyA k then vec3 (vx m - 1) (vy m) (vz m) else m in
  let m := if KeyD k then vec3 (vx m + 1) (vy m) (vz m) else m in
  m.

Definition isMoving (k : Keys) : bool := 0 <? lengthSq (moveDir k).

Definition frameDelta (prev time : float) : float :=
  Math_min ((time - prev) / 1000) MAX_DELTA.

Definition moveCharacter (r : Release) (ch : Object3D) (k : Keys)
           (charQuat : Quaternion) (delta : float) : Object3D :=
  let pos :=
    if isMoving k
    then addScaledVector (position ch)
           (applyQuaternion r (normalize (moveDir k)) charQuat)
           (MOVEMENT_SPEED * delta)
    else position ch in
  object3D pos charQuat.

Definition cameraTarget (r : Release) (charPos : Vector3) (yaw pitch : float)
  : option Vector3 :=
  match setFromEuler (euler pitch (yaw + Math_PI) 0) with
  | Some viewQuat =>
      let frontOffset := applyQuaternion r (vec3 0 2.8 4) viewQuat in
      Some (add charPos frontOffset)
  | None => None
  end.

Definition updateMixer (m : option float) (delta : float) : option float :=
  match m with
  | Some t => Some (t + delta)
  | None => None
  end.

Definition animate (r : Release) (s : State) (time : float) : option State :=
  let delta := frameDelta (prevTime s) time in
  match character s with
  | Some ch =>
      match setFromEuler (euler 0 (yaw s) 0) with
      | Some charQuat =>
          let ch' := moveCharacter r ch (keys s) charQuat delta in
          let '(wa, was, issued) :=
            switchAnimation (walkAction s) (isMoving (keys s)) (wasMoving s) in
          match cameraTarget r (position ch') (yaw s) (pitch s) with
          | Some cameraPos =>
              let cam := lerpVectors (cameraPosition s) cameraPos 0.2 in
              let lookAt := add (position ch') (vec3 0 1.6 0) in
              Some (mkState (Some ch') (updateMixer (mixer s) delta) wa (keys s)
                            (yaw s) (pitch s) (listening s) time was cam
                            (Some lookAt) (calls s ++ issued))
          | None => None
          end
      | None => None
      end
  | None =>
      Some (mkState None (updateMixer (mixer s) delta) (walkAction s) (keys s)
                    (yaw s) (pitch s) (listening s) time (wasMoving s)
                    (cameraPosition s) (cameraLookAt s) (calls s))
  end.

Inductive Event :=
| CharacterLoaded (scene : Object3D)
| KeyDown (code : string)
| KeyUp (code : string)
| PointerLockChange (locked : bool)
| MouseMove (movementX movementY : float)
| Frame (time : float).

Definition step (r : Release) (s : State) (e : Event) : option State :=
  match e with
  | CharacterLoaded scene => Some (onCharacterLoaded s scene)
  | KeyDown code => Some (onKeyDown s code)
  | KeyUp code => Some (onKeyUp s code)
  | PointerLockChange locked => Some (onPointerLockChange s locked)
  | MouseMove dx dy => Some (if listening s then onMouseMove s dx dy else s)
  | Frame time => animate r s time
  end.

Fixpoint run (r : Release) (s : State) (evs : list Event) : option State :=
  match evs with
  | [] => Some s
  | e :: rest =>
      match step r s e with
      | Some s' => run r s' rest
      | None => None
      end
  end.


Definition characterPosition (s : State) : option Vector3 :=
  option_map position (character s).

Definition targetOf (r : Release) (s : State) : option Vector3 :=
  match character s with
  | Some ch => cameraTarget r (position ch) (yaw s) (pitch s)
  | None => None
  end.

(** *** Exact values

    A finite float is a rational number; on these the statements about
    lengths are checked without any rounding. *)

Definition exact (x : float) : option QArith_base.Q :=
  match FloatOps.Prim2SF x with
  | SpecFloat.S754_zero _ => Some (QArith_base.inject_Z 0)
  | SpecFloat.S754_finite s m e =>
      Some (QArith_base.Qmult
              (QArith_base.inject_Z (if s then Zneg m else Zpos m))
              (QArith_base.Qpower (QArith_base.inject_Z 2) e))
  | _ => None
  end.





Definition scene0 : Object3D := object3D (vec3 0 0 0) (quat 0 0 0 1).

End F64.

(** ** Vectors and quaternions *)







Lemma charQuat_components (y : R) :
  charQuat y = quat 0 (sin (y / 2)) 0 (cos (y / 2)).
Proof.
  unfold charQuat, setFromEuler. simpl.
  replace (0 / 2) with 0 by lra. rewrite sin_0, cos_0. f_equal; ring.
Qed.

Lemma applyQuaternion_yaw_vy (v : Vector3) (y : R) :
  vy (applyQuaternion v (charQuat y)) = vy v.
Proof. rewrite charQuat_components. unfold applyQuaternion. simpl. ring. Qed.




Lemma vy_normalize (v : Vector3) : vy v = 0 -> vy (normalize v) = 0.
Proof.
  intros H. unfold normalize, divideScalar, multiplyScalar. simpl.
  rewrite H. ring.
Qed.



(** ** The motion integrator *)

Lemma isMoving_spec (k : Keys) :
  isMoving k = (xorb (KeyW k) (KeyS k) || xorb (KeyA k) (KeyD k))%bool.
Proof.
  destruct k as [[] [] [] []]; unfold isMoving, moveDir, lengthSq, Rgtb; simpl;
    destruct (Rlt_dec _ _) as [H | H]; try reflexivity; exfalso; lra.
Qed.


Lemma moveDir_vy (k : Keys) : vy (moveDir k) = 0.
Proof. destruct k as [[] [] [] []]; reflexivity. Qed.




Lemma direction_flat (k : Keys) (y : R) :
  vy (applyQuaternion (normalize (moveDir k)) (charQuat y)) = 0.
Proof.
  rewrite applyQuaternion_yaw_vy. apply vy_normalize, moveDir_vy.
Qed.

Lemma moveCharacter_position (ch : Object3D) (k : Keys) (y d : R) :
  position (moveCharacter ch k y d) =
  if isMoving k
  then addScaledVector (position ch)
         (applyQuaternion (normalize (moveDir k)) (charQuat y)) (MOVEMENT_SPEED * d)
  else position ch.
Proof. reflexivity. Qed.

Lemma moveCharacter_vy (ch : Object3D) (k : Keys) (y d : R) :
  vy (position (moveCharacter ch k y d)) = vy (position ch).
Proof.
  rewrite moveCharacter_position. destruct (isMoving k); [| reflexivity].
  unfold addScaledVector. cbn [vy]. rewrite direction_flat. ring.
Qed.


Lemma moveCharacter_idle (ch : Object3D) (k : Keys) (y d : R) :
  isMoving k = false -> position (moveCharacter ch k y d) = position ch.
Proof. intros H. rewrite moveCharacter_position, H. reflexivity. Qed.

(** ** One frame *)

Lemma animate_character (s : State) (t : R) :
  character (animate s t) =
  option_map
    (fun ch => moveCharacter ch (keys s) (yaw s) (frameDelta (prevTime s) t))
    (character s).
Proof.
  unfold animate. destruct (character s) as [ch |]; [| reflexivity].
  destruct (switchAnimation _ _ _) as [[wa was] issued]. reflexivity.
Qed.

Lemma animate_loaded_character (s : State) (ch : Object3D) (t : R) :
  character s = Some ch ->
  character (animate s t) =
  Some (moveCharacter ch (keys s) (yaw s) (frameDelta (prevTime s) t)).
Proof. intros H. rewrite animate_character, H. reflexivity. Qed.

Lemma animate_unloaded (s : State) (t : R) :
  character s = None ->
  animate s t =
  mkState None (updateMixer (mixer s) (frameDelta (prevTime s) t)) (walkAction s)
          (keys s) (yaw s) (pitch s) (listening s) t (wasMoving s)
          (cameraPosition s) (cameraLookAt s) (calls s).
Proof. intros H. unfold animate. rewrite H. reflexivity. Qed.

Lemma animate_inputs (s : State) (t : R) :
  keys (animate s t) = keys s /\ yaw (animate s t) = yaw s /\
  pitch (animate s t) = pitch s /\ listening (animate s t) = listening s /\
  prevTime (animate s t) = t.
Proof.
  unfold animate. destruct (character s) as [ch |].
  - destruct (switchAnimation _ _ _) as [[wa was] issued]. simpl. auto.
  - simpl. auto.
Qed.


Lemma animate_animation (s : State) (ch : Object3D) (t : R) :
  character s = Some ch ->
  (walkAction (animate s t), wasMoving (animate s t), calls (animate s t)) =
  (let '(wa, was, issued) :=
     switchAnimation (walkAction s) (isMoving (keys s)) (wasMoving s) in
   (wa, was, calls s ++ issued)).
Proof.
  intros H. unfold animate. rewrite H.
  destruct (switchAnimation _ _ _) as [[wa was] issued]. reflexivity.
Qed.


Lemma frameDelta_large (prev t : R) :
  0.05 <= (t - prev) / 1000 -> frameDelta prev t = 0.05.
Proof. intros H. unfold frameDelta, MAX_DELTA. apply Rmin_right. exact H. Qed.

(** ** Runs *)

Lemma run_app (s : State) (a b : list Event) : run s (a ++ b) = run (run s a) b.
Proof. unfold run. apply fold_left_app. Qed.

Lemma run_cons (s : State) (e : Event) (evs : list Event) :
  run s (e :: evs) = run (step s e) evs.
Proof. reflexivity. Qed.

Lemma run_invariant (P : State -> Prop) :
  (forall s e, P s -> P (step s e)) ->
  forall evs s, P s -> P (run s evs).
Proof.
  intros Hstep evs. induction evs as [| e evs IH]; intros s Hs.
  - exact Hs.
  - rewrite run_cons. apply IH, Hstep, Hs.
Qed.

Ltac input_event :=
  unfold onKeyDown, onKeyUp, onPointerLockChange, onMouseMove, withKeys;
  repeat match goal with
         | |- context [if hasOwnProperty ?c then _ else _] =>
             destruct (hasOwnProperty c)
         | |- context [if listening ?s then _ else _] =>
             destruct (listening s)
         end;
  simpl.

(** Key, pointer-lock and mouse events leave character, animation,
    camera and the edge flag alone. *)
Lemma step_input_frame (s : State) (e : Event) :
  isLoad e = false -> (forall t, e <> Frame t) ->
  character (step s e) = character s /\ mixer (step s e) = mixer s /\
  walkAction (step s e) = walkAction s /\ wasMoving (step s e) = wasMoving s /\
  cameraPosition (step s e) = cameraPosition s /\ calls (step s e) = calls s /\
  prevTime (step s e) = prevTime s.
Proof.
  intros Hl Hf. destruct e; simpl in *; try discriminate;
    try (input_event; repeat split; reflexivity).
  exfalso. apply (Hf time). reflexivity.
Qed.

Lemma step_onGround (s : State) (e : Event) : onGround s -> onGround (step s e).
Proof.
  unfold onGround. intros H. destruct e; simpl;
    try (input_event; exact H).
  - reflexivity.
  - rewrite animate_character. destruct (character s) as [ch |]; [| exact I].
    cbn [option_map]. rewrite moveCharacter_vy. exact H.
Qed.

(** ** Claims about the motion integrator *)

(** C3: whenever an opposing pair of keys is held (forward and back, or
    left and right), the intent vector's component on that axis is
    exactly zero, whatever the other two keys are; with all four keys
    held the intent vector is zero, the frame counts as not moving and
    the character is not displaced. *)
Theorem opposing_keys_cancel :
  (forall a d, vz (moveDir (mkKeys true a true d)) = 0) /\
  (forall w s, vx (moveDir (mkKeys w true s true)) = 0) /\
  moveDir allHeld = vec3 0 0 0 /\
  isMoving allHeld = false /\
  (forall s t,
      characterPosition (animate (withKeys s allHeld) t) = characterPosition s).
Proof.
  repeat split.
  - intros [] []; simpl; lra.
  - intros [] []; simpl; lra.
  - unfold moveDir, allHeld. simpl. f_equal; lra.
  - rewrite isMoving_spec. reflexivity.
  - intros s t. unfold characterPosition. rewrite animate_character.
    change (character (withKeys s allHeld)) with (character s).
    change (keys (withKeys s allHeld)) with allHeld.
    destruct (character s) as [ch |]; [| reflexivity].
    cbn [option_map]. f_equal. apply moveCharacter_idle.
    rewrite isMoving_spec. reflexivity.
Qed.



(** C6: the elapsed time the motion integrator uses is the minimum of
    the raw gap [(time - prevTime) / 1000] and 0.05; hence a frame whose
    raw gap is 2.0 (the clock advanced by 2000) leaves the character,
    the camera and the mixer exactly where a frame whose gap is 0.05
    (the clock advanced by 50) leaves them, for every state. *)
Theorem elapsed_time_clamp (s : State) :
  (forall t,
      character (animate s t) =
      option_map
        (fun ch => moveCharacter ch (keys s) (yaw s)
                     (Rmin ((t - prevTime s) / 1000) 0.05))
        (character s)) /\
  frameDelta (prevTime s) (prevTime s + 2000) = 0.05 /\
  frameDelta (prevTime s) (prevTime s + 50) = 0.05 /\
  character (animate s (prevTime s + 2000)) = character (animate s (prevTime s + 50)) /\
  cameraPosition (animate s (prevTime s + 2000)) =
  cameraPosition (animate s (prevTime s + 50)) /\
  mixer (animate s (prevTime s + 2000)) = mixer (animate s (prevTime s + 50)).
Proof.
  assert (H1 : frameDelta (prevTime s) (prevTime s + 2000) = 0.05)
    by (apply frameDelta_large; lra).
  assert (H2 : frameDelta (prevTime s) (prevTime s + 50) = 0.05)
    by (apply frameDelta_large; lra).
  split; [intros t; apply animate_character |].
  split; [exact H1 |]. split; [exact H2 |].
  unfold animate. rewrite H1, H2.
  destruct (character s) as [ch |]; [| simpl; auto].
  destruct (switchAnimation _ _ _) as [[wa was] issued]. simpl. auto.
Qed.

(** C10: a frame never changes the character's height, whatever keys
    are held, whatever the yaw and whatever the elapsed time; so from
    the start of the program on, a loaded character stays at height
    zero. *)
Theorem height_unchanged :
  (forall s t, height (animate s t) = height s) /\
  (forall s ch t, character s = Some ch ->
     exists ch', character (animate s t) = Some ch' /\
                 vy (position ch') = vy (position ch)) /\
  (forall t0 evs, onGround (run (init t0) evs)).
Proof.
  split; [| split].
  - intros s t. unfold height. rewrite animate_character.
    destruct (character s) as [ch |]; [| reflexivity].
    cbn [option_map]. f_equal. apply moveCharacter_vy.
  - intros s ch t H. eexists. split; [apply animate_loaded_character, H |].
    apply moveCharacter_vy.
  - intros t0 evs. apply run_invariant.
    + apply step_onGround.
    + exact I.
Qed.

Lemma height_unchanged_witness :
  exists ch', character (animate (withKeys loaded0 holdW) 16) = Some ch' /\
              vy (position ch') = vy (position (object3D CHARACTER_START_POSITION (quat 0 0 0 1))).
Proof.
  apply (proj1 (proj2 height_unchanged) (withKeys loaded0 holdW) _ 16).
  reflexivity.
Defined.

(** ** Mouse look *)

Lemma clampPitch_range (p : R) : - PI / 2 <= clampPitch p <= PI / 2.
Proof.
  pose proof PI_RGT_0 as Hpi. unfold clampPitch, Rmax, Rmin.
  destruct (Rle_dec (PI / 2) p); destruct (Rle_dec _ _); lra.
Qed.

Lemma clampPitch_inside (p : R) :
  - PI / 2 <= p <= PI / 2 -> clampPitch p = p.
Proof.
  intros H. unfold clampPitch, Rmax, Rmin.
  destruct (Rle_dec (PI / 2) p); destruct (Rle_dec _ _); lra.
Qed.

Lemma step_pitchInRange (s : State) (e : Event) :
  pitchInRange s -> pitchInRange (step s e).
Proof.
  unfold pitchInRange. intros H. destruct e; simpl.
  - exact H.
  - input_event; exact H.
  - input_event; exact H.
  - exact H.
  - destruct (listening s); [| exact H]. simpl. apply clampPitch_range.
  - destruct (animate_inputs s time) as (_ & _ & Hp & _). rewrite Hp. exact H.
Qed.

(** C5: a mouse-motion sample moves yaw by [- dx * sensitivity] and
    pitch by [- dy * sensitivity], the new pitch then being clamped to
    [[-PI/2, PI/2]]; whatever events the program receives from its
    initial state, pitch stays in that interval. *)
Theorem pitch_clamped :
  (forall s dx dy,
      yaw (onMouseMove s dx dy) = yaw s - dx * sensitivity /\
      pitch (onMouseMove s dx dy) =
      Rmax (- PI / 2) (Rmin (PI / 2) (pitch s - dy * sensitivity))) /\
  (forall s dx dy, - PI / 2 <= pitch (onMouseMove s dx dy) <= PI / 2) /\
  (forall t0 evs, - PI / 2 <= pitch (run (init t0) evs) <= PI / 2).
Proof.
  split; [| split].
  - intros s dx dy. split; reflexivity.
  - intros s dx dy. apply clampPitch_range.
  - intros t0 evs. apply (run_invariant pitchInRange).
    + apply step_pitchInRange.
    + unfold pitchInRange. simpl. pose proof PI_RGT_0. lra.
Qed.

(** ** Frames before the character has loaded *)

Lemma run_noLoad_invariant (P : State -> Prop) :
  (forall s e, isLoad e = false -> P s -> P (step s e)) ->
  forall evs s, noLoad evs = true -> P s -> P (run s evs).
Proof.
  intros Hstep evs. induction evs as [| e evs IH]; intros s Hn Hs.
  - exact Hs.
  - simpl in Hn. apply andb_true_iff in Hn. destruct Hn as [He Hn].
    rewrite run_cons. apply IH; [exact Hn |].
    apply Hstep; [| exact Hs]. destruct (isLoad e); [discriminate | reflexivity].
Qed.

Lemma animate_beforeLoad (s : State) (t : R) :
  character s = None -> mixer s = None -> animate s t = withPrevTime s t.
Proof.
  intros Hc Hm. rewrite (animate_unloaded s t Hc). unfold withPrevTime.
  rewrite Hc, Hm. reflexivity.
Qed.

Lemma step_beforeLoad (s : State) (e : Event) :
  isLoad e = false -> beforeLoad s -> beforeLoad (step s e).
Proof.
  intros Hl Hb. destruct e; simpl in *; try discriminate;
    try (input_event; exact Hb).
  destruct Hb as (Hc & Hm & Hb).
  rewrite (animate_beforeLoad s time Hc Hm).
  unfold beforeLoad, withPrevTime. simpl. auto.
Qed.

(** C8: a frame run before the character has loaded changes nothing but
    the time stamp [prevTime], for any held keys and any look angles:
    whatever key, mouse and frame events come before the load, there is
    still no character, no mixer and no animation, the camera is
    exactly at (0, 3, 10) and no call has been made on the animation.
    The frame function is total, so nothing is raised. *)
Theorem frame_before_load :
  (forall s t, character s = None -> mixer s = None ->
               animate s t = withPrevTime s t) /\
  (forall t0 evs t, noLoad evs = true ->
     let s := animate (run (init t0) evs) t in
     character s = None /\ mixer s = None /\ walkAction s = None /\
     cameraPosition s = vec3 0 3 10 /\ cameraLookAt s = None /\ calls s = []).
Proof.
  split.
  - apply animate_beforeLoad.
  - intros t0 evs t Hn.
    assert (Hb : beforeLoad (run (init t0) (evs ++ [Frame t]))).
    { apply (run_noLoad_invariant beforeLoad).
      - apply step_beforeLoad.
      - unfold noLoad in *. rewrite forallb_app, Hn. reflexivity.
      - unfold beforeLoad. simpl. repeat split; reflexivity. }
    rewrite run_app in Hb. simpl in Hb.
    destruct Hb as (H1 & H2 & H3 & H4 & H5 & H6 & H7). cbv zeta.
    repeat split; assumption.
Qed.

Lemma frame_before_load_witness :
  let s := animate (run (init 0) [KeyDown "KeyW"; PointerLockChange true;
                                  MouseMove 10 5; Frame 16]) 33 in
  character s = None /\ mixer s = None /\ walkAction s = None /\
  cameraPosition s = vec3 0 3 10 /\ cameraLookAt s = None /\ calls s = [].
Proof.
  apply (proj2 frame_before_load 0
           [KeyDown "KeyW"; PointerLockChange true; MouseMove 10 5; Frame 16] 33).
  reflexivity.
Defined.

(** ** Orientation of the character *)

Lemma animate_orientation (s : State) (t : R) :
  orientation (animate s t) =
  option_map (fun _ => charQuat (yaw s)) (character s).
Proof.
  unfold orientation. rewrite animate_character.
  destruct (character s); reflexivity.
Qed.

Lemma orientation_some_iff (s1 s2 : State) :
  orientation s1 = orientation s2 ->
  option_map (fun _ : Object3D => tt) (character s1) =
  option_map (fun _ : Object3D => tt) (character s2).
Proof.
  unfold orientation.
  destruct (character s1), (character s2); simpl; intros H;
    try reflexivity; discriminate.
Qed.

Lemma key_event_heading (s : State) (code : string) (b : bool) :
  let s' := if b then onKeyDown s code else onKeyUp s code in
  yaw s' = yaw s /\ listening s' = listening s /\ orientation s' = orientation s.
Proof. destruct b; input_event; auto. Qed.

Lemma step_yawAgree (s1 s2 : State) (e1 e2 : Event) :
  yawAgree s1 s2 -> sameHeading e1 e2 -> yawAgree (step s1 e1) (step s2 e2).
Proof.
  intros (Hy & Hl & Ho) He. destruct He; simpl.
  - unfold yawAgree. simpl. auto.
  - destruct (key_event_heading s1 c1 true) as (A1 & B1 & C1).
    destruct (key_event_heading s2 c2 true) as (A2 & B2 & C2).
    simpl in *. unfold yawAgree. rewrite A1, A2, B1, B2, C1, C2. auto.
  - destruct (key_event_heading s1 c1 false) as (A1 & B1 & C1).
    destruct (key_event_heading s2 c2 false) as (A2 & B2 & C2).
    simpl in *. unfold yawAgree. rewrite A1, A2, B1, B2, C1, C2. auto.
  - unfold yawAgree. simpl. auto.
  - rewrite <- Hl. destruct (listening s1) eqn:E.
    + unfold yawAgree, onMouseMove. simpl. rewrite Hy, <- Hl, E. auto.
    + unfold yawAgree. rewrite <- Hl, E. auto.
  - unfold yawAgree. rewrite !animate_orientation.
    destruct (animate_inputs s1 t1) as (_ & Y1 & _ & L1 & _).
    destruct (animate_inputs s2 t2) as (_ & Y2 & _ & L2 & _).
    rewrite Y1, Y2, L1, L2, Hy. repeat split; [exact Hl |].
    pose proof (orientation_some_iff s1 s2 Ho) as Hs.
    destruct (character s1), (character s2); simpl in *;
      try reflexivity; discriminate.
Qed.

Lemma run_yawAgree (evs1 evs2 : list Event) :
  Forall2 sameHeading evs1 evs2 ->
  forall s1 s2, yawAgree s1 s2 -> yawAgree (run s1 evs1) (run s2 evs2).
Proof.
  induction 1 as [| e1 e2 r1 r2 He _ IH]; intros s1 s2 Hs.
  - exact Hs.
  - rewrite !run_cons. apply IH, step_yawAgree; assumption.
Qed.

(** C9: after a frame the character's orientation is the quaternion of
    Euler(0, yaw, 0), a function of yaw alone; two runs that start with
    the same yaw and receive the same horizontal mouse movements, but
    differ arbitrarily in pitch, in vertical mouse movement, in keys
    and in frame times, show the same character orientation after
    every event. *)
Theorem orientation_depends_on_yaw_only :
  (forall s t,
      orientation (animate s t) =
      option_map (fun _ => setFromEuler (euler 0 (yaw s) 0)) (character s)) /\
  (forall s1 s2 evs1 evs2,
      yawAgree s1 s2 -> Forall2 sameHeading evs1 evs2 ->
      orientation (run s1 evs1) = orientation (run s2 evs2)).
Proof.
  split.
  - apply animate_orientation.
  - intros s1 s2 evs1 evs2 Hs He.
    destruct (run_yawAgree evs1 evs2 He s1 s2 Hs) as (_ & _ & Ho). exact Ho.
Qed.

Lemma orientation_depends_on_yaw_only_witness :
  orientation (run (init 0) [PointerLockChange true; CharacterLoaded scene0;
                             MouseMove 10 5; KeyDown "KeyW"; Frame 16]) =
  orientation (run (onMouseMove (init 7) 0 300)
                 [PointerLockChange true; CharacterLoaded scene0;
                  MouseMove 10 (-40); KeyDown "KeyA"; Frame 33]).
Proof.
  apply (proj2 orientation_depends_on_yaw_only).
  - unfold yawAgree, onMouseMove, sensitivity. simpl.
    repeat split; try reflexivity. lra.
  - repeat constructor.
Defined.

(** ** The animation switch *)

Lemma skipn_app_exact {A : Type} (l x : list A) :
  skipn (List.length l) (l ++ x) = x.
Proof. induction l as [| a l IH]; [reflexivity | exact IH]. Qed.

Lemma motionAfterEdges_cons (was now : bool) (rest : list bool) :
  motionAfterEdges was (now :: rest) = motionAfterEdges now rest.
Proof. destruct was, now; reflexivity. Qed.

Lemma Forall_repeat {A : Type} (a : A) (n : nat) : Forall (eq a) (repeat a n).
Proof. induction n; simpl; constructor; auto. Qed.

Lemma loaded_inv (s : State) :
  loaded s = true -> exists ch a, character s = Some ch /\ walkAction s = Some a.
Proof.
  unfold loaded. destruct (character s) as [ch |]; [| discriminate].
  destruct (walkAction s) as [a |]; [| discriminate]. eauto.
Qed.

Lemma switchAnimation_some (a : AnimationAction) (moving was : bool) :
  switchAnimation (Some a) moving was =
  (Some (action (match edge was moving with
                 | Rising => true
                 | Falling => false
                 | NoEdge => active a
                 end)),
   moving, callsFor (edge was moving)).
Proof. destruct a as [b], moving, was; reflexivity. Qed.

(** A frame in a state where character and animation are loaded. *)
Lemma animate_loaded (s : State) (t : R) :
  loaded s = true ->
  loaded (animate s t) = true /\
  wasMoving (animate s t) = isMoving (keys s) /\
  calls (animate s t) = calls s ++ callsFor (edge (wasMoving s) (isMoving (keys s))) /\
  playing (animate s t) =
  match edge (wasMoving s) (isMoving (keys s)) with
  | Rising => true
  | Falling => false
  | NoEdge => playing s
  end.
Proof.
  intros Hl. destruct (loaded_inv s Hl) as (ch & a & Hc & Ha).
  pose proof (animate_animation s ch t Hc) as H.
  rewrite Ha, switchAnimation_some in H. injection H as Hw Hm Hcalls.
  unfold loaded, playing.
  rewrite (animate_loaded_character s ch t Hc), Hw, Hm, Hcalls, Ha.
  repeat split.
Qed.

Lemma animate_issued (s : State) (t : R) :
  loaded s = true ->
  issuedBetween s (animate s t) =
  callsFor (edge (wasMoving s) (isMoving (keys s))).
Proof.
  intros Hl. destruct (animate_loaded s t Hl) as (_ & _ & Hc & _).
  unfold issuedBetween. rewrite Hc. apply skipn_app_exact.
Qed.

(** Key, pointer-lock and mouse events do not touch the animation. *)
Lemma step_input_animation (s : State) (e : Event) :
  isLoad e = false -> (forall t, e <> Frame t) ->
  loaded (step s e) = loaded s /\ playing (step s e) = playing s /\
  wasMoving (step s e) = wasMoving s /\ calls (step s e) = calls s.
Proof.
  intros Hl Hf.
  destruct (step_input_frame s e Hl Hf) as (Hc & _ & Ha & Hw & _ & Hk & _).
  unfold loaded, playing. rewrite Hc, Ha, Hw, Hk. auto.
Qed.

Ltac not_a_frame := intros ? ?; discriminate.

(** While every frame has the intent the edge flag already records,
    nothing is called on the animation. *)
Lemma steady_run (b : bool) (evs : list Event) :
  forall s,
    loaded s = true -> noLoad evs = true -> wasMoving s = b ->
    Forall (eq b) (frameIntents s evs) ->
    loaded (run s evs) = true /\ wasMoving (run s evs) = b /\
    calls (run s evs) = calls s /\ playing (run s evs) = playing s.
Proof.
  induction evs as [| e evs IH]; intros s Hl Hn Hw Hall.
  - simpl. auto.
  - simpl in Hn. apply andb_true_iff in Hn. destruct Hn as [He Hn].
    apply negb_true_iff in He. rewrite run_cons.
    destruct e as [sc | c | c | l | dx dy | t]; try discriminate;
      try (destruct (step_input_animation s _ He ltac:(not_a_frame))
             as (E1 & E2 & E3 & E4);
           rewrite <- E4, <- E2;
           apply IH; [rewrite E1 | | rewrite E3 | ]; assumption).
    cbn [frameIntents] in Hall. inversion Hall as [| x l Hx Hrest]; subst.
    destruct (animate_loaded s t Hl) as (A1 & A2 & A3 & A4).
    rewrite <- Hx in A3, A4.
    replace (edge (wasMoving s) (wasMoving s)) with NoEdge in A3, A4
      by (destruct (wasMoving s); reflexivity).
    simpl in A3. rewrite app_nil_r in A3. rewrite <- A3, <- A4.
    apply IH; try assumption. simpl. rewrite A2. symmetry. exact Hx.
Qed.

(** A run whose first frame has the opposite intent of the edge flag,
    and whose later frames keep that intent, calls the animation once. *)
Lemma edge_run (b : bool) (evs : list Event) :
  forall s l,
    loaded s = true -> noLoad evs = true -> wasMoving s = negb b ->
    frameIntents s evs = b :: l -> Forall (eq b) l ->
    loaded (run s evs) = true /\ wasMoving (run s evs) = b /\
    calls (run s evs) = calls s ++ callsFor (edge (negb b) b) /\
    playing (run s evs) = b.
Proof.
  induction evs as [| e evs IH]; intros s l Hl Hn Hw Hfi Hall.
  - discriminate.
  - simpl in Hn. apply andb_true_iff in Hn. destruct Hn as [He Hn].
    apply negb_true_iff in He. rewrite run_cons.
    destruct e as [sc | c | c | k | dx dy | t]; try discriminate;
      try (destruct (step_input_animation s _ He ltac:(not_a_frame))
             as (E1 & E2 & E3 & E4);
           rewrite <- E4;
           apply (IH _ l); [rewrite E1 | | rewrite E3 | | ]; assumption).
    cbn [frameIntents] in Hfi. injection Hfi as Hm Hrest.
    destruct (animate_loaded s t Hl) as (A1 & A2 & A3 & A4).
    rewrite Hm, Hw in A3, A4. rewrite Hm in A2.
    destruct (steady_run b evs (step s (Frame t)) A1 Hn A2)
      as (S1 & S2 & S3 & S4).
    { change (step s (Frame t)) with (animate s t). rewrite Hrest. exact Hall. }
    change (step s (Frame t)) with (animate s t) in *.
    rewrite S3, S4, A3, A4.
    repeat split; try assumption. destruct b; reflexivity.
Qed.

Lemma wasMoving_tracks_edges (evs : list Event) :
  forall s,
    loaded s = true -> noLoad evs = true ->
    loaded (run s evs) = true /\
    wasMoving (run s evs) = motionAfterEdges (wasMoving s) (frameIntents s evs).
Proof.
  induction evs as [| e evs IH]; intros s Hl Hn.
  - simpl. auto.
  - simpl in Hn. apply andb_true_iff in Hn. destruct Hn as [He Hn].
    apply negb_true_iff in He. rewrite run_cons.
    destruct e as [sc | c | c | k | dx dy | t]; try discriminate;
      try (destruct (step_input_animation s _ He ltac:(not_a_frame))
             as (E1 & _ & E3 & _);
           cbn [frameIntents]; rewrite <- E3;
           apply IH; [rewrite E1 |]; assumption).
    destruct (animate_loaded s t Hl) as (A1 & A2 & _).
    cbn [frameIntents]. rewrite motionAfterEdges_cons, <- A2.
    apply IH; assumption.
Qed.

(** Once the animation state and the edge flag agree they keep agreeing. *)
Lemma playing_tracks_flag (evs : list Event) :
  forall s,
    loaded s = true -> noLoad evs = true -> playing s = wasMoving s ->
    playing (run s evs) = wasMoving (run s evs).
Proof.
  induction evs as [| e evs IH]; intros s Hl Hn Hp.
  - exact Hp.
  - simpl in Hn. apply andb_true_iff in Hn. destruct Hn as [He Hn].
    apply negb_true_iff in He. rewrite run_cons.
    destruct e as [sc | c | c | k | dx dy | t]; try discriminate;
      try (destruct (step_input_animation s _ He ltac:(not_a_frame))
             as (E1 & E2 & E3 & _);
           apply IH; [rewrite E1 | | rewrite E2, E3]; assumption).
    destruct (animate_loaded s t Hl) as (A1 & A2 & _ & A4).
    apply IH; try assumption. simpl. rewrite A4, A2, Hp.
    destruct (wasMoving s), (isMoving (keys s)); reflexivity.
Qed.

(** From the first frame with movement on, the animation plays exactly
    when the edge flag is set. *)
Lemma playing_after_first_motion (evs : list Event) :
  forall s,
    loaded s = true -> noLoad evs = true -> wasMoving s = false ->
    In true (frameIntents s evs) ->
    playing (run s evs) = wasMoving (run s evs).
Proof.
  induction evs as [| e evs IH]; intros s Hl Hn Hw Hin.
  - destruct Hin.
  - simpl in Hn. apply andb_true_iff in Hn. destruct Hn as [He Hn].
    apply negb_true_iff in He. rewrite run_cons.
    destruct e as [sc | c | c | k | dx dy | t]; try discriminate;
      try (destruct (step_input_animation s _ He ltac:(not_a_frame))
             as (E1 & _ & E3 & _);
           apply IH; [rewrite E1 | | rewrite E3 | ]; assumption).
    destruct (animate_loaded s t Hl) as (A1 & A2 & _ & A4).
    cbn [frameIntents] in Hin. rewrite Hw in A4.
    destruct (isMoving (keys s)) eqn:Em.
    + apply playing_tracks_flag; try assumption. simpl. rewrite A4, A2. reflexivity.
    + destruct Hin as [Hin | Hin]; [discriminate |].
      apply IH; assumption.
Qed.

(** The state right after the load callback, whatever came before. *)
Lemma after_load (t0 : R) (pre : list Event) (scene : Object3D) :
  noLoad pre = true ->
  let s0 := run (init t0) (pre ++ [CharacterLoaded scene]) in
  loaded s0 = true /\ wasMoving s0 = false /\ playing s0 = true /\
  calls s0 = [CPlay].
Proof.
  intros Hn. cbv zeta. rewrite run_app.
  assert (Hb : beforeLoad (run (init t0) pre)).
  { apply (run_noLoad_invariant beforeLoad); [apply step_beforeLoad | exact Hn |].
    unfold beforeLoad. simpl. repeat split; reflexivity. }
  destruct Hb as (_ & _ & _ & Hw & _ & _ & Hc).
  simpl. unfold loaded, playing. simpl. rewrite Hw, Hc. auto.
Qed.

Lemma keys_step (s : State) (e : Event) : keys (step s e) = keyStep (keys s) e.
Proof.
  destruct e; simpl; try reflexivity; try (input_event; reflexivity).
  destruct (animate_inputs s time) as (Hk & _). exact Hk.
Qed.

Lemma keys_run (evs : list Event) :
  forall s, keys (run s evs) = fold_left keyStep evs (keys s).
Proof.
  induction evs as [| e evs IH]; intros s; [reflexivity |].
  rewrite run_cons, IH, keys_step. reflexivity.
Qed.

Lemma frameIntents_keys (evs : list Event) :
  forall s, frameIntents s evs = intentsFrom (keys s) evs.
Proof.
  induction evs as [| e evs IH]; intros s; [reflexivity |].
  destruct e; cbn [frameIntents intentsFrom]; rewrite IH, keys_step;
    try reflexivity.
  rewrite isMoving_spec. reflexivity.
Qed.

Lemma frameIntents_app (a b : list Event) :
  forall s, frameIntents s (a ++ b) = frameIntents s a ++ frameIntents (run s a) b.
Proof.
  induction a as [| e a IH]; intros s; [reflexivity |].
  rewrite run_cons. destruct e; cbn [frameIntents app]; rewrite IH; reflexivity.
Qed.

Lemma animate_no_edge (s : State) (t : R) :
  edge (wasMoving s) (isMoving (keys s)) = NoEdge ->
  issuedBetween s (animate s t) = [].
Proof.
  intros He. unfold issuedBetween.
  assert (Hc : calls (animate s t) = calls s ++ []).
  { destruct (character s) as [ch |] eqn:Ec.
    - pose proof (animate_animation s ch t Ec) as H.
      destruct (walkAction s) as [a |].
      + rewrite switchAnimation_some, He in H. injection H as _ _ H. exact H.
      + simpl in H. injection H as _ _ H. exact H.
    - rewrite (animate_unloaded s t Ec). simpl. symmetry. apply app_nil_r. }
  rewrite Hc. apply skipn_app_exact.
Qed.

(** ** Claims about the animation *)

(** C1: the program breaks the invariant.  The load callback calls
    [play] on the walk animation (line 75) while [wasMoving] is
    [false], the value that stands for a stopped animation everywhere
    in [animate]: after the load and two frames with no key held the
    character and the animation are loaded, the animation is playing,
    no frame has shown an edge into motion, and the one call made on
    the animation is the load's [play]. *)
Lemma playing_without_motion :
  let s0 := run (init 0) [CharacterLoaded scene0] in
  let s := run s0 [Frame 16; Frame 33] in
  loaded s = true /\
  playing s = true /\
  wasMoving s = false /\
  motionAfterEdges false (frameIntents s0 [Frame 16; Frame 33]) = false /\
  calls s = [CPlay].
Proof.
  cbv zeta.
  destruct (after_load 0 [] scene0 eq_refl) as (Hl & Hw & Hp & Hc).
  change (run (init 0) ([] ++ [CharacterLoaded scene0]))
    with (run (init 0) [CharacterLoaded scene0]) in *.
  set (s0 := run (init 0) [CharacterLoaded scene0]) in *.
  assert (Hi : frameIntents s0 [Frame 16; Frame 33] = [false; false])
    by (rewrite frameIntents_keys; reflexivity).
  destruct (steady_run false [Frame 16; Frame 33] s0 Hl eq_refl Hw)
    as (S1 & S2 & S3 & S4).
  { rewrite Hi. repeat constructor. }
  rewrite Hi, S3, S4, Hp, Hc. repeat split; assumption.
Qed.

(** The edge logic of [animate] on its own keeps what the invariant
    asks for: once character and animation handle have loaded, the
    edge flag records whether the latest moving/idle edge was into
    motion; a frame calls reset and play on an idle-to-moving edge, stop
    on a moving-to-idle edge and nothing otherwise; and from the first
    idle-to-moving edge on, the walk animation is playing iff the latest
    edge was into motion. *)
Lemma animation_follows_edges
        (t0 : R) (pre post : list Event) (scene : Object3D) :
  noLoad pre = true ->
  noLoad post = true ->
  let s0 := run (init t0) (pre ++ [CharacterLoaded scene]) in
  let s := run s0 post in
  loaded s = true /\
  wasMoving s = motionAfterEdges false (frameIntents s0 post) /\
  (forall t, issuedBetween s (animate s t) =
             callsFor (edge (wasMoving s) (isMoving (keys s)))) /\
  (In true (frameIntents s0 post) ->
   playing s = motionAfterEdges false (frameIntents s0 post)).
Proof.
  intros Hpre Hpost. cbv zeta.
  destruct (after_load t0 pre scene Hpre) as (Hl & Hw & _ & _).
  set (s0 := run (init t0) (pre ++ [CharacterLoaded scene])) in *.
  destruct (wasMoving_tracks_edges post s0 Hl Hpost) as (Hl' & Hw').
  rewrite Hw in Hw'.
  split; [exact Hl' |]. split; [exact Hw' |]. split.
  - intros t. apply animate_issued, Hl'.
  - intros Hin. rewrite <- Hw'.
    apply playing_after_first_motion; assumption.
Qed.

Lemma animation_follows_edges_witness :
  let s0 := run (init 0) ([KeyDown "KeyW"; Frame 16] ++ [CharacterLoaded scene0]) in
  let s := run s0 [Frame 33; KeyUp "KeyW"; Frame 50] in
  loaded s = true /\
  wasMoving s =
  motionAfterEdges false (frameIntents s0 [Frame 33; KeyUp "KeyW"; Frame 50]) /\
  (forall t, issuedBetween s (animate s t) =
             callsFor (edge (wasMoving s) (isMoving (keys s)))) /\
  (In true (frameIntents s0 [Frame 33; KeyUp "KeyW"; Frame 50]) ->
   playing s =
   motionAfterEdges false (frameIntents s0 [Frame 33; KeyUp "KeyW"; Frame 50])).
Proof.
  apply (animation_follows_edges 0 [KeyDown "KeyW"; Frame 16]
           [Frame 33; KeyUp "KeyW"; Frame 50] scene0); reflexivity.
Defined.

(** C2: with character and animation loaded and the character idle, a
    run of one or more frames that all have non-zero intent (keys and
    mouse may change in between) issues exactly one start, reset
    followed by play, and it is the first frame of the run that issues
    it; when the intent then becomes zero, the following frames, however
    many, issue exactly one stop; and a frame without a moving/idle
    edge issues nothing. *)
Theorem one_start_one_stop
        (s : State) (moving idle : list Event) (n m : nat) :
  loaded s = true ->
  wasMoving s = false ->
  noLoad moving = true ->
  noLoad idle = true ->
  frameIntents s moving = repeat true (S n) ->
  frameIntents (run s moving) idle = repeat false (S m) ->
  issuedBetween s (run s moving) = [CReset; CPlay] /\
  (forall before t rest,
      moving = before ++ Frame t :: rest -> frameIntents s before = [] ->
      issuedBetween s (run s before) = [] /\
      issuedBetween (run s before) (run s (before ++ [Frame t])) = [CReset; CPlay]) /\
  issuedBetween (run s moving) (run (run s moving) idle) = [CStop] /\
  (forall s' t,
      edge (wasMoving s') (isMoving (keys s')) = NoEdge ->
      issuedBetween s' (animate s' t) = []).
Proof.
  intros Hl Hw Hn1 Hn2 Hi1 Hi2.
  destruct (edge_run true moving s (repeat true n) Hl Hn1 Hw Hi1 (Forall_repeat _ _))
    as (L1 & W1 & C1 & _).
  destruct (edge_run false idle (run s moving) (repeat false m) L1 Hn2 W1 Hi2
              (Forall_repeat _ _)) as (_ & _ & C2 & _).
  split; [| split; [| split]].
  - unfold issuedBetween. rewrite C1. apply skipn_app_exact.
  - intros before t rest Hsplit Hnone.
    assert (Hnb : noLoad before = true).
    { unfold noLoad in *. rewrite Hsplit, forallb_app in Hn1.
      apply andb_true_iff in Hn1. tauto. }
    destruct (steady_run false before s Hl Hnb Hw) as (L0 & W0 & C0 & _).
    { rewrite Hnone. constructor. }
    split.
    + unfold issuedBetween. rewrite C0. rewrite <- (app_nil_r (calls s)) at 2.
      apply skipn_app_exact.
    + rewrite run_app. change (run (run s before) [Frame t])
        with (animate (run s before) t).
      rewrite (animate_issued _ t L0), W0.
      rewrite Hsplit, frameIntents_app, Hnone in Hi1.
      cbn [app frameIntents repeat] in Hi1. injection Hi1 as Hm _.
      rewrite Hm. reflexivity.
  - unfold issuedBetween. rewrite C2. apply skipn_app_exact.
  - apply animate_no_edge.
Qed.

Lemma one_start_one_stop_witness :
  let s := loaded0 in
  let moving := [KeyDown "KeyW"; Frame 16; Frame 33; KeyDown "KeyD"; Frame 50] in
  let idle := [KeyUp "KeyW"; KeyUp "KeyD"; Frame 66; Frame 83] in
  issuedBetween s (run s moving) = [CReset; CPlay] /\
  (forall before t rest,
      moving = before ++ Frame t :: rest -> frameIntents s before = [] ->
      issuedBetween s (run s before) = [] /\
      issuedBetween (run s before) (run s (before ++ [Frame t])) = [CReset; CPlay]) /\
  issuedBetween (run s moving) (run (run s moving) idle) = [CStop] /\
  (forall s' t,
      edge (wasMoving s') (isMoving (keys s')) = NoEdge ->
      issuedBetween s' (animate s' t) = []).
Proof.
  cbv zeta.
  apply (one_start_one_stop loaded0
           [KeyDown "KeyW"; Frame 16; Frame 33; KeyDown "KeyD"; Frame 50]
           [KeyUp "KeyW"; KeyUp "KeyD"; Frame 66; Frame 83] 2 1).
  - reflexivity.
  - reflexivity.
  - reflexivity.
  - reflexivity.
  - rewrite frameIntents_keys. reflexivity.
  - rewrite frameIntents_keys, keys_run. reflexivity.
Defined.

(** ** The camera rig *)









(** ** The exact lengths, run in binary64 *)

Module Binary64.

Import PrimFloat.
Import F64.
Local Open Scope float_scope.
#[local] Set Warnings "-inexact-float".



End Binary64.

(** ** Further properties of the input handlers *)

(** A key that is not one of the four bindings changes nothing, pressed
    or released. *)
Lemma unknown_keys_ignored (s : State) (code : string) :
  hasOwnProperty code = false ->
  onKeyDown s code = s /\ onKeyUp s code = s.
Proof.
  intros H. unfold onKeyDown, onKeyUp. rewrite H. split; reflexivity.
Qed.


(** ** The key map *)

Ltac key_cases :=
  repeat match goal with
         | |- context [String.eqb ?a ?b] =>
             destruct (String.eqb_spec a b); subst
         | H : context [String.eqb ?a ?b] |- _ =>
             destruct (String.eqb_spec a b); subst
         end;
  simpl in *; try congruence.

Lemma getKey_unbound (k : Keys) (code : string) :
  hasOwnProperty code = false -> getKey k code = None.
Proof. unfold hasOwnProperty, getKey. intros H. key_cases. Qed.

Lemma getKey_setKey_same (k : Keys) (code : string) (b : bool) :
  hasOwnProperty code = true -> getKey (setKey k code b) code = Some b.
Proof. unfold hasOwnProperty, getKey, setKey. intros H. key_cases. Qed.

Lemma getKey_setKey_other (k : Keys) (c code : string) (b : bool) :
  c <> code -> getKey (setKey k c b) code = getKey k code.
Proof. unfold getKey, setKey. intros H. key_cases. Qed.

Lemma getKey_keyStep (k : Keys) (e : Event) (code : string) :
  hasOwnProperty code = true ->
  getKey (keyStep k e) code =
  match keyEvent code e with
  | Some b => Some b
  | None => getKey k code
  end.
Proof.
  intros Hc. destruct e as [sc | c | c | l | dx dy | t]; simpl; try reflexivity.
  - destruct (String.eqb_spec c code) as [-> | Hne].
    + rewrite Hc. apply getKey_setKey_same, Hc.
    + destruct (hasOwnProperty c); [apply getKey_setKey_other, Hne | reflexivity].
  - destruct (String.eqb_spec c code) as [-> | Hne].
    + rewrite Hc. apply getKey_setKey_same, Hc.
    + destruct (hasOwnProperty c); [apply getKey_setKey_other, Hne | reflexivity].
Qed.

(** Whatever the program has received, [keys] has exactly its four
    properties, and each holds what the latest keydown or keyup with
    its code said (or its earlier value when there was none): events
    for other codes, mouse events, frames and the load never touch it. *)
Theorem key_held_iff_last_event_down (s : State) (evs : list Event) (code : string) :
  getKey (keys (run s evs)) code =
  if hasOwnProperty code
  then match lastKeyEvent code evs with
       | Some b => Some b
       | None => getKey (keys s) code
       end
  else None.
Proof.
  destruct (hasOwnProperty code) eqn:Hc; [| apply getKey_unbound, Hc].
  revert s. induction evs as [| e evs IH]; intros s; [reflexivity |].
  rewrite run_cons, IH. cbn [lastKeyEvent].
  destruct (lastKeyEvent code evs); [reflexivity |].
  rewrite keys_step. apply getKey_keyStep, Hc.
Qed.

(** Key events whose code is none of the four bindings can be struck
    from a run: the program ends in the same state without them. *)
Theorem unbound_keys_erasable (s : State) (evs : list Event) :
  run s evs = run s (filter (fun e => negb (unboundKey e)) evs).
Proof.
  revert s. induction evs as [| e evs IH]; intros s; [reflexivity |].
  cbn [filter]. destruct (unboundKey e) eqn:Hu; cbn [negb].
  - rewrite run_cons, <- IH. f_equal.
    destruct e as [sc | c | c | l | dx dy | t]; simpl in Hu; try discriminate;
      apply negb_true_iff in Hu; simpl;
      apply (unknown_keys_ignored s c Hu).
  - rewrite !run_cons. apply IH.
Qed.

(** ** Mouse capture *)

Lemma step_listening (s : State) (e : Event) :
  isLockChange e = false -> listening (step s e) = listening s.
Proof.
  intros H. destruct e as [sc | c | c | l | dx dy | t]; simpl in *.
  - reflexivity.
  - input_event; reflexivity.
  - input_event; reflexivity.
  - discriminate.
  - destruct (listening s) eqn:E; [simpl |]; exact E.
  - destruct (animate_inputs s t) as (_ & _ & _ & Hl & _). exact Hl.
Qed.

Lemma step_yaw (s : State) (e : Event) :
  yaw (step s e) =
  match e with
  | MouseMove dx _ => if listening s then yaw s - dx * sensitivity else yaw s
  | _ => yaw s
  end.
Proof.
  destruct e as [sc | c | c | l | dx dy | t]; simpl.
  - reflexivity.
  - input_event; reflexivity.
  - input_event; reflexivity.
  - reflexivity.
  - destruct (listening s); reflexivity.
  - destruct (animate_inputs s t) as (_ & Hy & _). exact Hy.
Qed.

Lemma step_pitch_uncaptured (s : State) (e : Event) :
  listening s = false -> pitch (step s e) = pitch s.
Proof.
  intros Hl. destruct e as [sc | c | c | l | dx dy | t]; simpl.
  - reflexivity.
  - input_event; reflexivity.
  - input_event; reflexivity.
  - reflexivity.
  - rewrite Hl. reflexivity.
  - destruct (animate_inputs s t) as (_ & _ & Hp & _). exact Hp.
Qed.

(** While the pointer is not captured, no event moves the look angles:
    mouse motion is not sampled. *)
Theorem look_frozen_while_uncaptured (s : State) (evs : list Event) :
  listening s = false ->
  noLockChange evs = true ->
  yaw (run s evs) = yaw s /\ pitch (run s evs) = pitch s /\
  listening (run s evs) = false.
Proof.
  revert s. induction evs as [| e evs IH]; intros s Hl Hn.
  - auto.
  - simpl in Hn. apply andb_true_iff in Hn. destruct Hn as [He Hn].
    apply negb_true_iff in He.
    assert (Hl' : listening (step s e) = false)
      by (rewrite step_listening; assumption).
    rewrite run_cons. destruct (IH (step s e) Hl' Hn) as (Hy & Hp & Hk).
    rewrite Hy, Hp, Hk, step_yaw, (step_pitch_uncaptured s e Hl).
    destruct e; try rewrite Hl; auto.
Qed.

Lemma look_frozen_while_uncaptured_witness :
  yaw (run (init 0) [MouseMove 10 5; Frame 16; MouseMove 3 (-9)]) = yaw (init 0) /\
  pitch (run (init 0) [MouseMove 10 5; Frame 16; MouseMove 3 (-9)]) = pitch (init 0) /\
  listening (run (init 0) [MouseMove 10 5; Frame 16; MouseMove 3 (-9)]) = false.
Proof.
  apply (look_frozen_while_uncaptured (init 0)); reflexivity.
Defined.

(** ** Input handlers and the load *)

Lemma isInput_inv (e : Event) :
  isInput e = true -> isLoad e = false /\ (forall t, e <> Frame t).
Proof.
  unfold isInput. intros H. apply andb_true_iff in H. destruct H as [H1 H2].
  apply negb_true_iff in H1, H2. split; [exact H1 |].
  intros t ->. discriminate.
Qed.

Lemma run_inputs (evs : list Event) :
  forall s,
    forallb isInput evs = true ->
    character (run s evs) = character s /\ mixer (run s evs) = mixer s /\
    walkAction (run s evs) = walkAction s /\ wasMoving (run s evs) = wasMoving s /\
    cameraPosition (run s evs) = cameraPosition s /\
    calls (run s evs) = calls s /\ prevTime (run s evs) = prevTime s.
Proof.
  induction evs as [| e evs IH]; intros s H.
  - simpl. repeat split.
  - simpl in H. apply andb_true_iff in H. destruct H as [He H].
    destruct (isInput_inv e He) as [Hl Hf].
    destruct (step_input_frame s e Hl Hf) as (A1 & A2 & A3 & A4 & A5 & A6 & A7).
    rewrite run_cons. destruct (IH (step s e) H) as (B1 & B2 & B3 & B4 & B5 & B6 & B7).
    rewrite B1, B2, B3, B4, B5, B6, B7. repeat split; assumption.
Qed.

Lemma step_input_record (s : State) (e : Event) :
  isInput e = true ->
  step s e =
  mkState (character s) (mixer s) (walkAction s) (keys (step s e))
          (yaw (step s e)) (pitch (step s e)) (listening (step s e))
          (prevTime s) (wasMoving s) (cameraPosition s) (cameraLookAt s)
          (calls s).
Proof.
  intros H. destruct e as [sc | c | c | l | dx dy | t]; try discriminate; simpl.
  - input_event; destruct s; reflexivity.
  - input_event; destruct s; reflexivity.
  - destruct s; reflexivity.
  - destruct (listening s); destruct s; reflexivity.
Qed.

(** The key, pointer-lock and mouse listeners only record input:
    however many of these events arrive between two frames, they change
    nothing but the held keys, the look angles and the mouse capture;
    the character, the camera, the mixer's clock, the animation and the
    time stamp of the last frame are as the last frame left them. *)
Theorem input_listeners_only_record (s : State) (evs : list Event) :
  forallb isInput evs = true ->
  run s evs =
  mkState (character s) (mixer s) (walkAction s) (keys (run s evs))
          (yaw (run s evs)) (pitch (run s evs)) (listening (run s evs))
          (prevTime s) (wasMoving s) (cameraPosition s) (cameraLookAt s)
          (calls s).
Proof.
  intros H.
  destruct (run_inputs evs s H) as (E1 & E2 & E3 & E4 & E5 & E6 & E7).
  assert (E8 : cameraLookAt (run s evs) = cameraLookAt s).
  { clear - H. revert s. induction evs as [| e evs IH]; intros s; [reflexivity |].
    simpl in H. apply andb_true_iff in H. destruct H as [He H].
    rewrite run_cons, (IH H). rewrite (step_input_record s e He). reflexivity. }
  destruct (run s evs). simpl in *. subst. reflexivity.
Qed.

Lemma input_listeners_only_record_witness :
  let evs := [KeyDown "KeyW"; PointerLockChange true; MouseMove 10 5; KeyUp "KeyW"] in
  run loaded0 evs =
  mkState (character loaded0) (mixer loaded0) (walkAction loaded0)
          (keys (run loaded0 evs)) (yaw (run loaded0 evs)) (pitch (run loaded0 evs))
          (listening (run loaded0 evs)) (prevTime loaded0) (wasMoving loaded0)
          (cameraPosition loaded0) (cameraLookAt loaded0) (calls loaded0).
Proof.
  apply (input_listeners_only_record loaded0
           [KeyDown "KeyW"; PointerLockChange true; MouseMove 10 5; KeyUp "KeyW"]).
  reflexivity.
Defined.

(** Keys held while the character was still loading do not count as
    movement already under way: frames before the load leave the edge
    flag unset, so the first frame after the load that has movement
    intent restarts the walk animation with reset and play, right after
    the play the load callback made. *)
Theorem first_moving_frame_after_load
        (t0 : R) (pre between : list Event) (scene : Object3D) (t : R) :
  noLoad pre = true ->
  forallb isInput between = true ->
  let s := run (init t0) (pre ++ [CharacterLoaded scene] ++ between) in
  isMoving (keys s) = true ->
  calls s = [CPlay] /\
  calls (animate s t) = [CPlay; CReset; CPlay] /\
  wasMoving (animate s t) = true /\ playing (animate s t) = true.
Proof.
  intros Hpre Hbetween. cbv zeta. intros Hm.
  rewrite app_assoc, run_app in *.
  destruct (after_load t0 pre scene Hpre) as (Hl & Hw & _ & Hc).
  set (s0 := run (init t0) (pre ++ [CharacterLoaded scene])) in *.
  destruct (run_inputs between s0 Hbetween) as (B1 & _ & B3 & B4 & _ & B6 & _).
  set (s := run s0 between) in *.
  assert (Hls : loaded s = true) by (unfold loaded in *; rewrite B1, B3; exact Hl).
  destruct (animate_loaded s t Hls) as (_ & A2 & A3 & A4).
  rewrite B4, Hw, Hm in A3, A4. rewrite Hm in A2. rewrite B6, Hc in A3.
  rewrite B6, Hc. auto.
Qed.

Lemma first_moving_frame_after_load_witness :
  let s := run (init 0) ([KeyDown "KeyW"; Frame 16; Frame 33] ++
                         [CharacterLoaded scene0] ++ [MouseMove 1 1]) in
  calls s = [CPlay] /\
  calls (animate s 50) = [CPlay; CReset; CPlay] /\
  wasMoving (animate s 50) = true /\ playing (animate s 50) = true.
Proof.
  cbv zeta.
  apply (first_moving_frame_after_load 0 [KeyDown "KeyW"; Frame 16; Frame 33]
           [MouseMove 1 1] scene0 50).
  - reflexivity.
  - reflexivity.
  - rewrite isMoving_spec, keys_run. reflexivity.
Defined.
